(** * SQL_helper_bot: the query generator of [main1.py]

    A shallow embedding of the three pure functions of [main1.py]
    ([is_valid_name], [parse_table_line], [generate_sql]) together with the
    fragment of Python's [str] they rely on, followed by the properties of
    the generator.

    A Python [str] is a sequence of Unicode code points; it is modelled as a
    list of code points ([N]).  String literals of the source are written as
    UTF-8 literals and decoded by [u]. *)

From Stdlib Require Import Strings.String Strings.Ascii.
From Stdlib Require Import List NArith Bool Arith Lia.
Import ListNotations.

(** ** Python strings *)

Module PyStr.

Definition char := N.
Definition str := list char.

(** UTF-8 decoding of a literal: [pending] continuation bytes are still
    expected for the code point accumulated in [acc]. *)
Fixpoint utf8_decode (pending : nat) (acc : N) (bs : list N) : str :=
  match bs with
  | [] => []
  | b :: r =>
      match pending with
      | O =>
          if (b <? 128)%N then b :: utf8_decode 0 0%N r
          else if (b <? 224)%N then utf8_decode 1 (N.land b 31) r
          else if (b <? 240)%N then utf8_decode 2 (N.land b 15) r
          else utf8_decode 3 (N.land b 7) r
      | S k =>
          let acc' := (acc * 64 + N.land b 63)%N in
          match k with
          | O => acc' :: utf8_decode 0 0%N r
          | S _ => utf8_decode k acc' r
          end
      end
  end.

Fixpoint bytes_of (s : string) : list N :=
  match s with
  | EmptyString => []
  | String a r => N_of_ascii a :: bytes_of r
  end.

(** The code points of a source literal. *)
Definition u (s : string) : str := utf8_decode 0 0%N (bytes_of s).

(** The line feed, ["\n"]. *)
Definition LF : char := 10%N.

Fixpoint eqb (a b : str) : bool :=
  match a, b with
  | [], [] => true
  | x :: a', y :: b' => (x =? y)%N && eqb a' b'
  | _, _ => false
  end.

(** Truth value of a string: the empty string is false. *)
Definition truthy (s : str) : bool :=
  match s with [] => false | _ :: _ => true end.

(** [str.isspace] on one code point (CPython's [_PyUnicode_IsWhitespace]):
    these are the characters [strip()] removes and [split()] separates on. *)
Definition isspace (c : char) : bool :=
  ((9 <=? c) && (c <=? 13) || (28 <=? c) && (c <=? 32)
   || (c =? 133) || (c =? 160) || (c =? 5760)
   || (8192 <=? c) && (c <=? 8202)
   || (c =? 8232) || (c =? 8233) || (c =? 8239) || (c =? 8287)
   || (c =? 12288))%N.

Fixpoint lstrip (s : str) : str :=
  match s with
  | [] => []
  | c :: r => if isspace c then lstrip r else s
  end.

Definition rstrip (s : str) : str := rev (lstrip (rev s)).

(** [s.strip()] *)
Definition strip (s : str) : str := rstrip (lstrip s).

(** [s.startswith(p)] *)
Fixpoint startswith (p s : str) : bool :=
  match p, s with
  | [], _ => true
  | _ :: _, [] => false
  | x :: p', y :: s' => (x =? y)%N && startswith p' s'
  end.

(** [s.split(sep)] for a non-empty literal [sep]: the occurrences of [sep]
    are found left to right and do not overlap.  [skip] counts the characters
    of an occurrence that are still to be passed over.  The result is never
    the empty list. *)
Fixpoint split_go (sep : str) (skip : nat) (s : str) : list str :=
  match s with
  | [] => [[]]
  | c :: r =>
      match skip with
      | S k => split_go sep k r
      | O =>
          if startswith sep s then [] :: split_go sep (length sep - 1) r
          else
            match split_go sep 0 r with
            | h :: t => (c :: h) :: t
            | [] => [[c]]
            end
      end
  end.

Definition split (sep s : str) : list str := split_go sep 0 s.

(** [s.split()]: the maximal runs of non-whitespace characters. *)
Fixpoint split_ws (s : str) : list str :=
  match s with
  | [] => []
  | c :: r =>
      if isspace c then split_ws r
      else
        match r with
        | [] => [[c]]
        | c' :: _ =>
            if isspace c' then [c] :: split_ws r
            else
              match split_ws r with
              | h :: t => (c :: h) :: t
              | [] => [[c]]
              end
        end
  end.

(** [sep.join(parts)] *)
Fixpoint join (sep : str) (parts : list str) : str :=
  match parts with
  | [] => []
  | [p] => p
  | p :: rest => p ++ sep ++ join sep rest
  end.

(** [s.upper()] on the ASCII letters.  [is_valid_name] evaluates
    [name.upper()] only after the regular expression has matched, that is on
    strings of ASCII letters, digits, underscores and line feeds, where
    [upper] is exactly this. *)
Definition upper_char (c : char) : char :=
  if ((97 <=? c) && (c <=? 122))%N then (c - 32)%N else c.

Definition upper (s : str) : str := map upper_char s.

(** [x in xs] for a list or set of strings. *)
Definition mem (x : str) (xs : list str) : bool := existsb (eqb x) xs.

(** [xs.index(x)], for [x] occurring in [xs] (Python raises otherwise; the
    source guards the call by [x in xs]). *)
Fixpoint index (x : str) (xs : list str) : nat :=
  match xs with
  | [] => 0
  | y :: r => if eqb y x then 0 else S (index x r)
  end.

(** [needle in hay] for strings: [needle] occurs as a substring. *)
Fixpoint contains (needle hay : str) : bool :=
  startswith needle hay ||
  match hay with
  | [] => false
  | _ :: r => contains needle r
  end.

(** [xs[i]]; the default stands for an index the source never reaches. *)
Definition item (xs : list str) (i : nat) : str := nth i xs [].

(** What an f-string prints for an optional string. *)
Definition fmt (o : option str) : str :=
  match o with
  | Some s => s
  | None => u "None"
  end.

(** Truth value of an optional string: [None] and [""] are false. *)
Definition truthy_opt (o : option str) : bool :=
  match o with
  | Some s => truthy s
  | None => false
  end.

End PyStr.

Import PyStr.

(** ** Constants *)

(** [VALID_NAME_REGEX = r'^[a-zA-Z_][a-zA-Z0-9_]*$']. *)

Definition class_head (c : char) : bool :=
  ((97 <=? c) && (c <=? 122) || (65 <=? c) && (c <=? 90) || (c =? 95))%N.

Definition class_tail (c : char) : bool :=
  ((97 <=? c) && (c <=? 122) || (65 <=? c) && (c <=? 90)
   || (48 <=? c) && (c <=? 57) || (c =? 95))%N.

(** [[a-zA-Z0-9_]*$] matched at [s]: either the star takes one more
    character, or [$] matches here, which Python's [re] allows at the end of
    the string and just before a line feed that ends the string. *)
Fixpoint tail_then_end (s : str) : bool :=
  match s with
  | [] => true
  | c :: r =>
      class_tail c && tail_then_end r
      || (c =? LF)%N && match r with [] => true | _ :: _ => false end
  end.

(** [bool(re.match(VALID_NAME_REGEX, name))] *)
Definition VALID_NAME_REGEX (name : str) : bool :=
  match name with
  | [] => false
  | c :: r => class_head c && tail_then_end r
  end.

Definition SQL_RESERVED_KEYWORDS : list str :=
  [ u "SELECT"; u "FROM"; u "WHERE"; u "INSERT"; u "UPDATE"; u "DELETE";
    u "JOIN"; u "GROUP"; u "ORDER"; u "BY";
    u "HAVING"; u "IN"; u "IS"; u "NULL"; u "AND"; u "OR"; u "NOT"; u "LIKE";
    u "BETWEEN"; u "EXISTS"; u "DISTINCT";
    u "CASE"; u "WHEN"; u "THEN"; u "ELSE"; u "END" ].

(** ** [is_valid_name] *)

Definition is_valid_name (name : str) : bool :=
  VALID_NAME_REGEX name && negb (mem (upper name) SQL_RESERVED_KEYWORDS).

(** ** [parse_table_line] *)

Record table := mk_table {
  name : str;
  alias : option str;
  columns : list str;
  join_condition : option str
}.

Definition parse_table_line (line : str) : table :=
  let table_info := split (u " : ") (strip line) in
  let table_name_parts := split (u " ") (item table_info 0) in
  let table_name := item table_name_parts 0 in
  let alias :=
    if mem (u "-") table_name_parts then
      let alias_index := index (u "-") table_name_parts in
      if alias_index + 1 <? length table_name_parts
      then Some (item table_name_parts (alias_index + 1))
      else None
    else None in
  let columns :=
    if (1 <? length table_info) && truthy (item table_info 1)
    then split_ws (item table_info 1)
    else [u "*"] in
  let join_condition :=
    if 2 <? length table_info then Some (strip (item table_info 2)) else None in
  {| name := table_name;
     alias := alias;
     columns := columns;
     join_condition := join_condition |}.

(** ** [generate_sql] *)

Module Msg.

Definition empty_query : str := u "Ошибка: Запрос не должен быть пустым.".

Definition invalid_table (n : str) : str :=
  u "Ошибка: Имя таблицы '" ++ n ++ u "' недопустимо или зарезервировано.".

Definition invalid_alias (a : str) : str :=
  u "Ошибка: Псевдоним '" ++ a ++ u "' недопустим или зарезервирован.".

Definition invalid_column : str :=
  u "Ошибка: Одно из имен столбцов недопустимо или зарезервировано.".

Definition missing_join : str :=
  u "Ошибка: Все таблицы, кроме первой, должны иметь условие соединения.".

End Msg.

(** [all(is_valid_name(col) for col in table["columns"] if col != "*")] *)
Definition columns_valid (t : table) : bool :=
  forallb is_valid_name (filter (fun col => negb (eqb col (u "*"))) (columns t)).

(** The first loop: every line is parsed and checked; the first failing
    check returns its message ([inl]), otherwise the table is appended. *)
Fixpoint check_lines (lines : list str) (tables : list table)
  : str + list table :=
  match lines with
  | [] => inr tables
  | line :: rest =>
      let table := parse_table_line line in
      if negb (is_valid_name (name table)) then
        inl (Msg.invalid_table (name table))
      else if truthy_opt (alias table) && negb (is_valid_name (fmt (alias table))) then
        inl (Msg.invalid_alias (fmt (alias table)))
      else if negb (columns_valid table) then
        inl Msg.invalid_column
      else check_lines rest (tables ++ [table])
  end.

(** [enumerate(xs)] *)
Definition enumerate {A : Type} (xs : list A) : list (nat * A) :=
  combine (seq 0 (length xs)) xs.

(** [any(i > 0 and not t["join_condition"] for i, t in enumerate(tables))] *)
Definition join_missing (tables : list table) : bool :=
  existsb (fun it => (0 <? fst it) && negb (truthy_opt (join_condition (snd it))))
          (enumerate tables).

(** The variables the second loop assigns. *)
Record clauses := mk_clauses {
  select_columns : list str;
  from_clause : str;
  join_clauses : list str
}.

(** [table['alias'] or table['name']] *)
Definition qualifier (t : table) : str :=
  if truthy_opt (alias t) then fmt (alias t) else name t.

Definition formatted_columns (t : table) : list str :=
  map (fun col => qualifier t ++ u "." ++ col) (columns t).

(** One iteration of the second loop. *)
Definition render_step (st : clauses) (it : nat * table) : clauses :=
  let i := fst it in
  let table := snd it in
  let st1 :=
    if i =? 0 then
      {| select_columns := select_columns st;
         from_clause :=
           if truthy_opt (alias table)
           then u "FROM " ++ name table ++ u " AS " ++ fmt (alias table)
           else u "FROM " ++ name table;
         join_clauses := join_clauses st |}
    else
      {| select_columns := select_columns st;
         from_clause := from_clause st;
         join_clauses :=
           join_clauses st ++
           [ if truthy_opt (alias table)
             then [LF] ++ u "JOIN " ++ name table ++ u " AS " ++ fmt (alias table)
                  ++ u " ON " ++ fmt (join_condition table)
             else [LF] ++ u "JOIN " ++ name table
                  ++ u " ON " ++ fmt (join_condition table) ] |} in
  {| select_columns := select_columns st1 ++ formatted_columns table;
     from_clause := from_clause st1;
     join_clauses := join_clauses st1 |}.

Definition final_clauses (tables : list table) : clauses :=
  fold_left render_step (enumerate tables)
    {| select_columns := []; from_clause := []; join_clauses := [] |}.

Definition render (tables : list table) : str :=
  let select_clause := u "SELECT" in
  let st := final_clauses tables in
  select_clause ++ u " " ++ join (u ", ") (select_columns st) ++ u " "
  ++ from_clause st ++ join [] (join_clauses st) ++ u ";".

Definition generate_sql (query : str) : str :=
  let lines := split [LF] (strip query) in
  match lines with
  | [] => Msg.empty_query
  | _ :: _ =>
      match check_lines lines [] with
      | inl message => message
      | inr tables =>
          if join_missing tables then Msg.missing_join else render tables
      end
  end.

(** ** Vocabulary of the specification *)

(** The descriptors of a query: one per line of the trimmed input. *)
Definition query_tables (query : str) : list table :=
  map parse_table_line (split [LF] (strip query)).

(** The segments of a line, and the tokens of its first segment. *)
Definition segments (line : str) : list str := split (u " : ") (strip line).

Definition columns_segment (line : str) : option str :=
  nth_error (segments line) 1.

Definition spec_tokens (line : str) : list str :=
  split (u " ") (item (segments line) 0).

(** The token that follows the first ["-"] of a token list, if any. *)
Fixpoint alias_after_dash (tokens : list str) : option str :=
  match tokens with
  | [] => None
  | tk :: rest =>
      if eqb tk (u "-") then hd_error rest else alias_after_dash rest
  end.

(** The per-line invariants. *)
Definition name_ok (t : table) : Prop := is_valid_name (name t) = true.

Definition alias_ok (t : table) : Prop :=
  forall a, alias t = Some a -> a <> [] -> is_valid_name a = true.

Definition columns_ok (t : table) : Prop :=
  forall col, In col (columns t) -> col <> u "*" -> is_valid_name col = true.

Definition line_ok (t : table) : Prop :=
  name_ok t /\ alias_ok t /\ columns_ok t.

(** A descriptor at a position after the first that has no join condition. *)
Definition lacks_join (tables : list table) (i : nat) : Prop :=
  0 < i /\ exists t, nth_error tables i = Some t
                   /\ truthy_opt (join_condition t) = false.

Definition with_join (t : table) (jc : option str) : table :=
  {| name := name t; alias := alias t; columns := columns t;
     join_condition := jc |}.

(** The checks of one iteration of the first loop, and the message of the
    first descriptor that fails one. *)
Definition line_error (t : table) : option str :=
  if negb (is_valid_name (name t)) then Some (Msg.invalid_table (name t))
  else if truthy_opt (alias t) && negb (is_valid_name (fmt (alias t)))
       then Some (Msg.invalid_alias (fmt (alias t)))
  else if negb (columns_valid t) then Some Msg.invalid_column
  else None.

Fixpoint first_error (tables : list table) : option str :=
  match tables with
  | [] => None
  | t :: rest =>
      match line_error t with
      | Some e => Some e
      | None => first_error rest
      end
  end.

(** The string is one of the error messages: it opens with the error word. *)
Definition is_error (s : str) : bool := startswith (u "Ошибка: ") s.

(** ** The message handler *)

(** [process_sql_query]: the text passed to [message.answer] for a message
    whose text is [text] (the handler sends it with [parse_mode="Markdown"]
    and does nothing else). *)
Definition process_sql_query (text : str) : str :=
  let query := strip text in
  let sql_query := generate_sql query in
  u "Генерируемый SQL запрос:" ++ [LF] ++ u "```sql" ++ [LF]
  ++ sql_query ++ u "```".

(** ** Closed forms used by the properties below *)

(** A name as the regular expression means it: a letter or underscore, then
    letters, digits and underscores, and nothing else. *)
Definition identifier (s : str) : bool :=
  match s with
  | [] => false
  | c :: r => class_head c && forallb class_tail r
  end.

(** The FROM clause of the first table and the JOIN line of a later one. *)
Definition from_text (t : table) : str :=
  if truthy_opt (alias t)
  then u "FROM " ++ name t ++ u " AS " ++ fmt (alias t)
  else u "FROM " ++ name t.

Definition join_text (t : table) : str :=
  if truthy_opt (alias t)
  then [LF] ++ u "JOIN " ++ name t ++ u " AS " ++ fmt (alias t)
       ++ u " ON " ++ fmt (join_condition t)
  else [LF] ++ u "JOIN " ++ name t ++ u " ON " ++ fmt (join_condition t).

(** The statement for a first table and the tables joined to it. *)
Definition sql_text (t : table) (rest : list table) : str :=
  u "SELECT " ++ join (u ", ") (concat (map formatted_columns (t :: rest)))
  ++ u " " ++ from_text t ++ concat (map join_text rest) ++ u ";".

(** Every query passes: all lines in order, no join condition missing. *)
Definition query_ok (query : str) : Prop :=
  Forall line_ok (query_tables query)
  /\ forall i, ~ lacks_join (query_tables query) i.

(** ** Facts about the string operations *)

Section StringFacts.

Lemma eqb_refl (a : str) : eqb a a = true.
Proof.
  induction a as [|x a IH]; simpl; [reflexivity|].
  now rewrite N.eqb_refl, IH.
Qed.

Lemma eqb_eq (a b : str) : eqb a b = true <-> a = b.
Proof.
  split; [|intros ->; apply eqb_refl].
  revert b; induction a as [|x a IH]; intros [|y b]; simpl; try discriminate.
  - reflexivity.
  - intros H. apply andb_true_iff in H as [Hx Hr].
    apply N.eqb_eq in Hx. apply IH in Hr. congruence.
Qed.

Lemma eqb_neq (a b : str) : eqb a b = false <-> a <> b.
Proof.
  rewrite <- eqb_eq. destruct (eqb a b); split; congruence.
Qed.

Lemma mem_In (x : str) (xs : list str) : mem x xs = true <-> In x xs.
Proof.
  unfold mem. rewrite existsb_exists. split.
  - intros (y & Hy & E). apply eqb_eq in E. now subst.
  - intros H. exists x. split; [assumption | apply eqb_refl].
Qed.

Lemma startswith_app (p s : str) : startswith p (p ++ s) = true.
Proof.
  induction p as [|x p IH]; simpl; [reflexivity|].
  now rewrite N.eqb_refl, IH.
Qed.

Lemma contains_here (needle rest : str) : contains needle (needle ++ rest) = true.
Proof.
  destruct (needle ++ rest) eqn:E; simpl; rewrite <- E, startswith_app; reflexivity.
Qed.

Lemma contains_skip (needle pre hay : str) :
  contains needle hay = true -> contains needle (pre ++ hay) = true.
Proof.
  intros H. induction pre as [|x pre IH]; simpl; [assumption|].
  rewrite IH. apply orb_true_r.
Qed.

Lemma contains_middle (needle pre post : str) :
  contains needle (pre ++ needle ++ post) = true.
Proof. apply contains_skip, contains_here. Qed.

Lemma split_go_nonempty (sep : str) (skip : nat) (s : str) :
  split_go sep skip s <> [].
Proof.
  revert skip. induction s as [|c r IH]; intros skip; simpl; [discriminate|].
  destruct skip as [|k]; [|apply IH].
  destruct (startswith sep (c :: r)); [discriminate|].
  destruct (split_go sep 0 r); discriminate.
Qed.

Lemma split_nonempty (sep s : str) : split sep s <> [].
Proof. apply split_go_nonempty. Qed.

Lemma lstrip_blank (s : str) : forallb isspace s = true -> lstrip s = [].
Proof.
  induction s as [|c r IH]; simpl; [reflexivity|].
  intros H. apply andb_true_iff in H as [Hc Hr]. rewrite Hc. now apply IH.
Qed.

Lemma strip_blank (s : str) : forallb isspace s = true -> strip s = [].
Proof.
  intros H. unfold strip. now rewrite (lstrip_blank s H).
Qed.

End StringFacts.

(** ** The validator *)

Section Validator.

Lemma keywords_upper :
  forall k, In k SQL_RESERVED_KEYWORDS -> upper k = k.
Proof.
  intros k H. apply mem_In in H. unfold mem in H.
  apply existsb_exists in H as (k' & Hin & E). apply eqb_eq in E. subst k'.
  assert (A : forallb (fun w => eqb (upper w) w) SQL_RESERVED_KEYWORDS = true)
    by (vm_compute; reflexivity).
  rewrite forallb_forall in A. apply eqb_eq. now apply A.
Qed.

Lemma reserved_rejected (s : str) :
  In (upper s) SQL_RESERVED_KEYWORDS -> is_valid_name s = false.
Proof.
  intros H. apply mem_In in H. unfold is_valid_name. rewrite H.
  apply andb_false_r.
Qed.

(** The strings the regular expression accepts: an identifier, possibly
    followed by one line feed. *)
Lemma tail_then_end_shape (s : str) :
  tail_then_end s = true ->
  exists body, forallb class_tail body = true /\ (s = body \/ s = body ++ [LF]).
Proof.
  induction s as [|c r IH]; simpl.
  - intros _. exists []. split; [reflexivity | now left].
  - intros H. apply orb_true_iff in H as [H|H].
    + apply andb_true_iff in H as [Hc Hr].
      destruct (IH Hr) as (body & Hb & Hs).
      exists (c :: body). simpl. rewrite Hc, Hb. split; [reflexivity|].
      destruct Hs as [->| ->]; [now left | now right].
    + apply andb_true_iff in H as [Hc Hr]. apply N.eqb_eq in Hc.
      destruct r; [|discriminate]. exists []. split; [reflexivity|].
      right. now rewrite Hc.
Qed.

Lemma is_valid_name_shape (s : str) :
  is_valid_name s = true ->
  exists c body,
    class_head c = true /\ forallb class_tail body = true /\
    (s = c :: body \/ s = c :: body ++ [LF]).
Proof.
  unfold is_valid_name. intros H. apply andb_true_iff in H as [H _].
  destruct s as [|c r]; simpl in H; [discriminate|].
  apply andb_true_iff in H as [Hc Hr].
  destruct (tail_then_end_shape r Hr) as (body & Hb & Hs).
  exists c, body. repeat split; try assumption.
  destruct Hs as [->| ->]; [now left | now right].
Qed.

Lemma class_tail_ascii (c : char) : class_tail c = true -> (c < 128)%N.
Proof.
  unfold class_tail.
  rewrite !orb_true_iff, !andb_true_iff, !N.leb_le, N.eqb_eq. lia.
Qed.

(** Only strings of ASCII characters are valid names. *)
Lemma is_valid_name_ascii (s : str) (c : char) :
  is_valid_name s = true -> In c s -> (c < 128)%N.
Proof.
  intros H Hin.
  destruct (is_valid_name_shape s H) as (c0 & body & Hc0 & Hbody & Hs).
  assert (Hhead : (c0 < 128)%N).
  { revert Hc0. unfold class_head.
    rewrite !orb_true_iff, !andb_true_iff, !N.leb_le, N.eqb_eq. lia. }
  rewrite forallb_forall in Hbody.
  destruct Hs as [-> | ->]; destruct Hin as [<- | Hin]; try assumption.
  - now apply class_tail_ascii, Hbody.
  - apply in_app_or in Hin as [Hin | [<- | []]].
    + now apply class_tail_ascii, Hbody.
    + reflexivity.
Qed.

End Validator.

(** ** Claims settled by evaluation *)

(** C1. The two-line example of the help text: the input
    [customers - c : name age] / [orders - o : order_date : c.id = o.customer_id]
    yields exactly
    [SELECT c.name, c.age, o.order_date FROM customers AS c] followed by a
    line feed and [JOIN orders AS o ON c.id = o.customer_id;] -- the columns
    qualified by alias in input order, the first table as FROM with AS, the
    second as a JOIN with its ON condition on a new line, one semicolon. *)
Theorem generate_sql_two_tables :
  generate_sql (u "customers - c : name age" ++ [LF]
                ++ u "orders - o : order_date : c.id = o.customer_id")
  = u "SELECT c.name, c.age, o.order_date FROM customers AS c" ++ [LF]
    ++ u "JOIN orders AS o ON c.id = o.customer_id;".
Proof. vm_compute. reflexivity. Qed.

(** C4, the claim as stated fails.  The input [products : : ] holds a
    single separator [" : "]: the two places where one could start share a
    space, and occurrences do not overlap.  Trimmed or not, the line is cut
    into [products] and a second segment whose only token is [:]; that
    token is taken as a column, it is not a valid name, and the result is
    the column error, not [SELECT products.* FROM products;]. *)
Lemma products_single_separator :
  split (u " : ") (u "products : : ") = [u "products"; u ": "]
  /\ segments (u "products : : ") = [u "products"; u ":"]
  /\ columns (parse_table_line (u "products : : ")) = [u ":"]
  /\ is_valid_name (u ":") = false
  /\ generate_sql (u "products : : ") = Msg.invalid_column
  /\ generate_sql (u "products : : ") <> u "SELECT products.* FROM products;".
Proof.
  repeat split; try (vm_compute; reflexivity).
  vm_compute. discriminate.
Qed.

(** C8 (evaluation of the code at a failing input).  [is_valid_name] accepts
    the identifier [abc] followed by a line feed: [$] in the regular
    expression also matches just before a final line feed. *)
Theorem is_valid_name_trailing_newline :
  is_valid_name (u "abc" ++ [LF]) = true
  /\ is_valid_name (u "abc") = true
  /\ class_tail LF = false.
Proof. repeat split; vm_compute; reflexivity. Qed.

(** C9. Every string equal, up to letter case, to one of the 26 reserved
    words is rejected by [is_valid_name], although such a string has the
    shape of an identifier (a string with a character outside ASCII is
    rejected whatever its upper case is); on the input [SELECT : id] the
    generator answers with the table-name error, which names [SELECT]. *)
Theorem reserved_words_rejected :
  length SQL_RESERVED_KEYWORDS = 26
  /\ (forall s k, In k SQL_RESERVED_KEYWORDS -> upper s = upper k ->
        is_valid_name s = false)
  /\ (forall s c, In c s -> (128 <= c)%N -> is_valid_name s = false)
  /\ VALID_NAME_REGEX (u "SELECT") = true
  /\ generate_sql (u "SELECT : id") = Msg.invalid_table (u "SELECT")
  /\ contains (u "SELECT") (generate_sql (u "SELECT : id")) = true.
Proof.
  split; [reflexivity|]. split.
  - intros s k Hk E. apply reserved_rejected.
    rewrite E, (keywords_upper k Hk). exact Hk.
  - split.
    + intros s c Hin Hc. destruct (is_valid_name s) eqn:E; [|reflexivity].
      pose proof (is_valid_name_ascii s c E Hin). lia.
    + repeat split; vm_compute; reflexivity.
Qed.

Lemma reserved_words_rejected_witness :
  In (u "ORDER") SQL_RESERVED_KEYWORDS
  /\ upper (u "Order") = upper (u "ORDER")
  /\ is_valid_name (u "Order") = false.
Proof.
  assert (H : In (u "ORDER") SQL_RESERVED_KEYWORDS)
    by (apply mem_In; vm_compute; reflexivity).
  split; [exact H|]. split; [reflexivity|].
  apply (proj1 (proj2 reserved_words_rejected) (u "Order") (u "ORDER"));
    [exact H | reflexivity].
Defined.

(** ** The two loops of [generate_sql] *)

Section Loops.

Lemma check_lines_first_error (lines : list str) (acc : list table) :
  check_lines lines acc =
  match first_error (map parse_table_line lines) with
  | Some e => inl e
  | None => inr (acc ++ map parse_table_line lines)
  end.
Proof.
  revert acc. induction lines as [|line rest IH]; intros acc;
    cbn [check_lines map first_error].
  - now rewrite app_nil_r.
  - generalize (parse_table_line line) as t. intros t. unfold line_error.
    destruct (negb (is_valid_name (name t))); [reflexivity|].
    destruct (truthy_opt (alias t) && negb (is_valid_name (fmt (alias t))));
      [reflexivity|].
    destruct (negb (columns_valid t)); [reflexivity|].
    rewrite IH. destruct (first_error (map parse_table_line rest));
      [reflexivity|].
    now rewrite <- app_assoc.
Qed.

(** [generate_sql] as a function of the descriptors of the query. *)
Lemma generate_sql_tables (query : str) :
  generate_sql query =
  match first_error (query_tables query) with
  | Some e => e
  | None =>
      if join_missing (query_tables query) then Msg.missing_join
      else render (query_tables query)
  end.
Proof.
  unfold generate_sql, query_tables.
  destruct (split [LF] (strip query)) as [|l ls] eqn:E.
  - exfalso. exact (split_nonempty _ _ E).
  - rewrite check_lines_first_error.
    destruct (first_error (map parse_table_line (l :: ls))); reflexivity.
Qed.

Lemma columns_valid_ok (t : table) : columns_valid t = true <-> columns_ok t.
Proof.
  unfold columns_valid, columns_ok. rewrite forallb_forall. split.
  - intros H col Hin Hne. apply H. apply filter_In. split; [assumption|].
    apply negb_true_iff. now apply eqb_neq.
  - intros H col Hin. apply filter_In in Hin as [Hin Hne].
    apply negb_true_iff in Hne. apply eqb_neq in Hne. now apply H.
Qed.

Lemma alias_check_ok (t : table) :
  truthy_opt (alias t) && negb (is_valid_name (fmt (alias t))) = false
  <-> alias_ok t.
Proof.
  unfold alias_ok. destruct (alias t) as [a|]; simpl.
  - destruct a as [|c a]; simpl.
    + split; [|reflexivity]. intros _ a' E Hne. inversion E. congruence.
    + rewrite negb_false_iff. split.
      * intros H a' E _. inversion E. now subst.
      * intros H. now apply H.
  - split; [|reflexivity]. intros _ a E. discriminate.
Qed.

Lemma line_error_none (t : table) : line_error t = None <-> line_ok t.
Proof.
  unfold line_error, line_ok, name_ok.
  rewrite <- alias_check_ok, <- columns_valid_ok.
  destruct (is_valid_name (name t)); simpl.
  - destruct (truthy_opt (alias t) && negb (is_valid_name (fmt (alias t)))).
    + split; [discriminate|]. intros (_ & H & _). discriminate.
    + destruct (columns_valid t); simpl.
      * split; [now repeat split | reflexivity].
      * split; [discriminate|]. intros (_ & _ & H). discriminate.
  - split; [discriminate|]. intros (H & _). discriminate.
Qed.

Lemma first_error_none (ts : list table) :
  first_error ts = None <-> Forall line_ok ts.
Proof.
  induction ts as [|t rest IH]; simpl.
  - split; [constructor | reflexivity].
  - destruct (line_error t) eqn:E.
    + split; [discriminate|]. intros H. inversion H as [|? ? Ht _]; subst.
      apply line_error_none in Ht. congruence.
    + rewrite IH. apply line_error_none in E. split.
      * intros H. now constructor.
      * intros H. now inversion H.
Qed.

Lemma first_error_skip (pre : list table) (t : table) (post : list table) :
  Forall line_ok pre ->
  first_error (pre ++ t :: post) =
  match line_error t with
  | Some e => Some e
  | None => first_error post
  end.
Proof.
  induction 1 as [|p pre Hp _ IH]; simpl; [reflexivity|].
  apply line_error_none in Hp. now rewrite Hp.
Qed.

(** A query with a descriptor that is not in order has a first such one. *)
Lemma first_offender (ts : list table) :
  ~ Forall line_ok ts ->
  exists pre t post,
    ts = pre ++ t :: post /\ Forall line_ok pre /\ ~ line_ok t.
Proof.
  induction ts as [|t rest IH]; intros H.
  - exfalso. apply H. constructor.
  - destruct (line_error t) eqn:E.
    + exists [], t, rest. repeat split; [constructor|].
      intros Hok. apply line_error_none in Hok. congruence.
    + apply line_error_none in E.
      destruct IH as (pre & t' & post & -> & Hpre & Ht').
      * intros Hr. apply H. now constructor.
      * exists (t :: pre), t', post. repeat split; [now constructor | assumption].
Qed.

Lemma existsb_enumerate (A : Type) (f : nat * A -> bool) (xs : list A) (k : nat) :
  existsb f (combine (seq k (length xs)) xs) = true <->
  exists i x, nth_error xs i = Some x /\ f (k + i, x) = true.
Proof.
  revert k. induction xs as [|y r IH]; intros k; simpl.
  - split; [discriminate|]. intros (i & x & H & _). destruct i; discriminate.
  - rewrite orb_true_iff, IH. split.
    + intros [H | (i & x & Hn & Hf)].
      * exists 0, y. rewrite Nat.add_0_r. now split.
      * exists (S i), x. rewrite Nat.add_succ_r. now split.
    + intros (i & x & Hn & Hf). destruct i as [|i]; simpl in Hn.
      * left. inversion Hn. subst. now rewrite Nat.add_0_r in Hf.
      * right. exists i, x. rewrite Nat.add_succ_r in Hf. now split.
Qed.

Lemma join_missing_lacks (ts : list table) :
  join_missing ts = true <-> exists i, lacks_join ts i.
Proof.
  unfold join_missing, enumerate, lacks_join. rewrite existsb_enumerate. simpl.
  split.
  - intros (i & t & Hn & Hf). apply andb_true_iff in Hf as [Hi Hj].
    apply Nat.ltb_lt in Hi. apply negb_true_iff in Hj.
    exists i. split; [assumption|]. now exists t.
  - intros (i & Hi & t & Hn & Hj). exists i, t. split; [assumption|].
    apply andb_true_iff. split; [now apply Nat.ltb_lt | now apply negb_true_iff].
Qed.

Lemma select_columns_fold (ts : list table) (k : nat) (st : clauses) :
  select_columns (fold_left render_step (combine (seq k (length ts)) ts) st)
  = select_columns st ++ concat (map formatted_columns ts).
Proof.
  revert k st. induction ts as [|t rest IH]; intros k st;
    cbn [length seq combine fold_left map concat].
  - now rewrite app_nil_r.
  - rewrite IH. unfold render_step. cbn [fst snd].
    destruct (k =? 0); cbn [select_columns]; now rewrite <- app_assoc.
Qed.

(** The SELECT list is made of the columns of every table, in order. *)
Lemma select_columns_final (ts : list table) :
  select_columns (final_clauses ts) = concat (map formatted_columns ts).
Proof. unfold final_clauses, enumerate. now rewrite select_columns_fold. Qed.

End Loops.

(** ** The messages *)

Section Messages.

Lemma invalid_table_facts (n : str) :
  is_error (Msg.invalid_table n) = true
  /\ startswith (u "SELECT") (Msg.invalid_table n) = false
  /\ startswith (u "FROM") (Msg.invalid_table n) = false
  /\ contains n (Msg.invalid_table n) = true
  /\ Msg.invalid_table n <> Msg.empty_query
  /\ Msg.invalid_table n <> Msg.missing_join.
Proof.
  repeat split; try reflexivity.
  - apply contains_middle.
  - intros E. apply (f_equal (fun s => nth 8 s 0%N)) in E. vm_compute in E.
    discriminate.
  - intros E. apply (f_equal (fun s => nth 8 s 0%N)) in E. vm_compute in E.
    discriminate.
Qed.

Lemma invalid_alias_facts (a : str) :
  is_error (Msg.invalid_alias a) = true
  /\ startswith (u "SELECT") (Msg.invalid_alias a) = false
  /\ startswith (u "FROM") (Msg.invalid_alias a) = false
  /\ contains a (Msg.invalid_alias a) = true
  /\ Msg.invalid_alias a <> Msg.empty_query
  /\ Msg.invalid_alias a <> Msg.missing_join.
Proof.
  repeat split; try reflexivity.
  - apply contains_middle.
  - intros E. apply (f_equal (fun s => nth 8 s 0%N)) in E. vm_compute in E.
    discriminate.
  - intros E. apply (f_equal (fun s => nth 8 s 0%N)) in E. vm_compute in E.
    discriminate.
Qed.

Lemma invalid_column_facts :
  is_error Msg.invalid_column = true
  /\ startswith (u "SELECT") Msg.invalid_column = false
  /\ startswith (u "FROM") Msg.invalid_column = false
  /\ Msg.invalid_column <> Msg.empty_query
  /\ Msg.invalid_column <> Msg.missing_join.
Proof.
  repeat split; try reflexivity; vm_compute; discriminate.
Qed.

Lemma invalid_table_not_empty (n : str) :
  Msg.invalid_table n <> Msg.empty_query.
Proof. exact (proj1 (proj2 (proj2 (proj2 (proj2 (invalid_table_facts n)))))). Qed.

Lemma invalid_table_not_join (n : str) :
  Msg.invalid_table n <> Msg.missing_join.
Proof. exact (proj2 (proj2 (proj2 (proj2 (proj2 (invalid_table_facts n)))))). Qed.

Lemma invalid_alias_not_empty (a : str) :
  Msg.invalid_alias a <> Msg.empty_query.
Proof. exact (proj1 (proj2 (proj2 (proj2 (proj2 (invalid_alias_facts a)))))). Qed.

Lemma invalid_alias_not_join (a : str) :
  Msg.invalid_alias a <> Msg.missing_join.
Proof. exact (proj2 (proj2 (proj2 (proj2 (proj2 (invalid_alias_facts a)))))). Qed.

Lemma invalid_column_not_empty : Msg.invalid_column <> Msg.empty_query.
Proof. exact (proj1 (proj2 (proj2 (proj2 invalid_column_facts)))). Qed.

Lemma invalid_column_not_join : Msg.invalid_column <> Msg.missing_join.
Proof. exact (proj2 (proj2 (proj2 (proj2 invalid_column_facts)))). Qed.

Lemma render_not_message (ts : list table) :
  render ts <> Msg.empty_query /\ is_error (render ts) = false.
Proof.
  split; [|reflexivity].
  intros E. apply (f_equal (fun s => nth 0 s 0%N)) in E. vm_compute in E.
  discriminate.
Qed.

(** Every message of the first loop is one of the three per-line errors. *)
Lemma line_error_cases (t : table) (e : str) :
  line_error t = Some e ->
  (~ name_ok t /\ e = Msg.invalid_table (name t))
  \/ (name_ok t /\ ~ alias_ok t /\ e = Msg.invalid_alias (fmt (alias t)))
  \/ (name_ok t /\ alias_ok t /\ ~ columns_ok t /\ e = Msg.invalid_column).
Proof.
  unfold line_error, name_ok.
  destruct (is_valid_name (name t)) eqn:En; simpl.
  - destruct (truthy_opt (alias t) && negb (is_valid_name (fmt (alias t))))
      eqn:Ea.
    + intros E. inversion E. right. left. repeat split.
      intros Hok. apply alias_check_ok in Hok. congruence.
    + apply alias_check_ok in Ea.
      destruct (columns_valid t) eqn:Ec; simpl; [discriminate|].
      intros E. inversion E. right. right. repeat split; try assumption.
      intros Hok. apply columns_valid_ok in Hok. congruence.
  - intros E. inversion E. left. split; [discriminate | reflexivity].
Qed.

Lemma first_error_some (ts : list table) (e : str) :
  first_error ts = Some e -> exists t, In t ts /\ line_error t = Some e.
Proof.
  induction ts as [|t rest IH]; simpl; [discriminate|].
  destruct (line_error t) eqn:E.
  - intros H. inversion H. subst. exists t. split; [now left | assumption].
  - intros H. destruct (IH H) as (t' & Hin & Ht').
    exists t'. split; [now right | assumption].
Qed.

End Messages.

(** ** Validation *)

(** C2. The descriptors are validated in input order and the generator
    returns at the first one that violates a per-line invariant, with the
    priority table name, then alias (when one is present), then columns (the
    wildcard being exempt).  The join-condition check runs only when every
    descriptor passed: a query with an offending line never yields the
    join-condition message, and a query whose lines are all in order and where
    some descriptors after the first lack a join condition -- however many --
    yields the one aggregate message.  Otherwise the SQL text is rendered. *)
Theorem validation_order (query : str) :
  (forall pre t post,
      query_tables query = pre ++ t :: post -> Forall line_ok pre ->
      (~ name_ok t -> generate_sql query = Msg.invalid_table (name t))
      /\ (name_ok t -> ~ alias_ok t ->
          generate_sql query = Msg.invalid_alias (fmt (alias t)))
      /\ (name_ok t -> alias_ok t -> ~ columns_ok t ->
          generate_sql query = Msg.invalid_column))
  /\ (~ Forall line_ok (query_tables query) ->
      generate_sql query <> Msg.missing_join)
  /\ (Forall line_ok (query_tables query) ->
      (exists i, lacks_join (query_tables query) i) ->
      generate_sql query = Msg.missing_join)
  /\ (Forall line_ok (query_tables query) ->
      (forall i, ~ lacks_join (query_tables query) i) ->
      generate_sql query = render (query_tables query)).
Proof.
  rewrite generate_sql_tables. repeat split.
  - intros Hn. rewrite H, (first_error_skip pre t post H0).
    destruct (line_error t) as [e|] eqn:E.
    + destruct (line_error_cases t e E) as [(_ & ->)|[(Hn' & _)|(Hn' & _)]];
        [reflexivity | contradiction | contradiction].
    + apply line_error_none in E. destruct E as (Hn' & _). contradiction.
  - intros Hn Ha. rewrite H, (first_error_skip pre t post H0).
    destruct (line_error t) as [e|] eqn:E.
    + destruct (line_error_cases t e E) as [(Hn' & _)|[(_ & _ & ->)|(_ & Ha' & _)]];
        [contradiction | reflexivity | contradiction].
    + apply line_error_none in E. destruct E as (_ & Ha' & _). contradiction.
  - intros Hn Ha Hc. rewrite H, (first_error_skip pre t post H0).
    destruct (line_error t) as [e|] eqn:E.
    + destruct (line_error_cases t e E)
        as [(Hn' & _)|[(_ & Ha' & _)|(_ & _ & _ & ->)]];
        [contradiction | contradiction | reflexivity].
    + apply line_error_none in E. destruct E as (_ & _ & Hc'). contradiction.
  - intros Hbad. destruct (first_error (query_tables query)) as [e|] eqn:E.
    + destruct (first_error_some _ _ E) as (t & _ & Ht).
      destruct (line_error_cases t e Ht) as [(_ & ->)|[(_ & _ & ->)|(_ & _ & _ & ->)]].
      * apply invalid_table_not_join.
      * apply invalid_alias_not_join.
      * apply invalid_column_not_join.
    + apply first_error_none in E. contradiction.
  - intros Hok Hj. apply first_error_none in Hok. rewrite Hok.
    apply join_missing_lacks in Hj. now rewrite Hj.
  - intros Hok Hj. apply first_error_none in Hok. rewrite Hok.
    destruct (join_missing (query_tables query)) eqn:E; [|reflexivity].
    apply join_missing_lacks in E. destruct E as (i & Hi).
    exfalso. exact (Hj i Hi).
Qed.

Lemma validation_order_witness :
  (Forall line_ok (query_tables (u "a : x" ++ [LF] ++ u "b : y" ++ [LF] ++ u "c : z"))
   /\ (exists i, lacks_join
         (query_tables (u "a : x" ++ [LF] ++ u "b : y" ++ [LF] ++ u "c : z")) i)
   /\ generate_sql (u "a : x" ++ [LF] ++ u "b : y" ++ [LF] ++ u "c : z")
      = Msg.missing_join)
  /\ (name_ok (parse_table_line (u "b - 1c : from"))
      /\ ~ alias_ok (parse_table_line (u "b - 1c : from"))
      /\ generate_sql (u "a : x" ++ [LF] ++ u "b - 1c : from")
         = Msg.invalid_alias (u "1c")).
Proof.
  split.
  - assert (Hok : Forall line_ok
             (query_tables (u "a : x" ++ [LF] ++ u "b : y" ++ [LF] ++ u "c : z")))
      by (apply first_error_none; vm_compute; reflexivity).
    assert (Hj : exists i, lacks_join
             (query_tables (u "a : x" ++ [LF] ++ u "b : y" ++ [LF] ++ u "c : z")) i)
      by (apply join_missing_lacks; vm_compute; reflexivity).
    split; [exact Hok|]. split; [exact Hj|].
    exact (proj1 (proj2 (proj2 (validation_order _))) Hok Hj).
  - assert (Hn : name_ok (parse_table_line (u "b - 1c : from")))
      by (vm_compute; reflexivity).
    assert (Ha : ~ alias_ok (parse_table_line (u "b - 1c : from"))).
    { intros H. specialize (H (u "1c") eq_refl). vm_compute in H.
      assert (E : false = true) by (apply H; discriminate). discriminate. }
    split; [exact Hn|]. split; [exact Ha|].
    refine (proj1 (proj2 (proj1 (validation_order
              (u "a : x" ++ [LF] ++ u "b - 1c : from"))
              [parse_table_line (u "a : x")]
              (parse_table_line (u "b - 1c : from")) [] _ _)) Hn Ha).
    + vm_compute. reflexivity.
    + apply first_error_none. vm_compute. reflexivity.
Defined.

(** C3, the claim as stated fails: the column [1x] is not a valid name, the
    generator answers with the column message, and that message does not
    contain [1x].  It fails for the empty alias too: in [t -  2x : a] (two
    spaces after the dash) the alias is the empty string, which is not a
    valid name, but the alias check is skipped for it and the result is a
    statement. *)
Lemma column_error_names_no_column :
  (In (u "1x") (columns (parse_table_line (u "t : 1x")))
   /\ is_valid_name (u "1x") = false
   /\ generate_sql (u "t : 1x") = Msg.invalid_column
   /\ contains (u "1x") (generate_sql (u "t : 1x")) = false)
  /\ (alias (parse_table_line (u "t -  2x : a")) = Some []
      /\ is_valid_name [] = false
      /\ generate_sql (u "t -  2x : a") = u "SELECT t.a FROM t;"
      /\ is_error (generate_sql (u "t -  2x : a")) = false).
Proof.
  split.
  - split; [left; vm_compute; reflexivity|].
    repeat split; vm_compute; reflexivity.
  - repeat split; vm_compute; reflexivity.
Qed.

(** C3, amended.  For every input with a descriptor that violates a per-line
    invariant -- an invalid table name, an invalid alias that is not the
    empty string, or an invalid column other than the wildcard -- the
    generator returns an error string, which does not begin with SELECT or
    FROM.  The error is that of the first offending descriptor: for an
    invalid table name or alias it contains the identifier; for an invalid
    column it is the fixed column message. *)
Theorem invalid_identifier_error (query : str) :
  ~ Forall line_ok (query_tables query) ->
  is_error (generate_sql query) = true
  /\ startswith (u "SELECT") (generate_sql query) = false
  /\ startswith (u "FROM") (generate_sql query) = false
  /\ exists pre t post,
       query_tables query = pre ++ t :: post /\ Forall line_ok pre /\
       ((~ name_ok t
         /\ generate_sql query = Msg.invalid_table (name t)
         /\ contains (name t) (generate_sql query) = true)
        \/ (name_ok t /\ exists a,
              alias t = Some a /\ a <> [] /\ is_valid_name a = false
              /\ generate_sql query = Msg.invalid_alias a
              /\ contains a (generate_sql query) = true)
        \/ (name_ok t /\ alias_ok t /\ ~ columns_ok t
            /\ generate_sql query = Msg.invalid_column)).
Proof.
  intros Hbad.
  destruct (first_offender _ Hbad) as (pre & t & post & Hts & Hpre & Ht).
  assert (G : generate_sql query =
              match line_error t with Some e => e | None => [] end
              /\ line_error t <> None).
  { rewrite generate_sql_tables, Hts, (first_error_skip pre t post Hpre).
    destruct (line_error t) as [e|] eqn:E; [split; [reflexivity|discriminate]|].
    apply line_error_none in E. contradiction. }
  destruct G as (G & Hsome).
  destruct (line_error t) as [e|] eqn:E; [clear Hsome|congruence].
  rewrite G.
  destruct (line_error_cases t e E)
    as [(Hn & ->)|[(Hn & Ha & ->)|(Hn & Ha & Hc & ->)]].
  - destruct (invalid_table_facts (name t)) as (F1 & F2 & F3 & F4 & _).
    repeat split; try assumption.
    exists pre, t, post. repeat split; try assumption.
    left. repeat split; assumption.
  - destruct (invalid_alias_facts (fmt (alias t))) as (F1 & F2 & F3 & F4 & _).
    repeat split; try assumption.
    exists pre, t, post. repeat split; try assumption.
    right. left. split; [assumption|].
    destruct (alias t) as [a|] eqn:Eal.
    + exists a. cbn [fmt] in *.
      destruct (is_valid_name a) eqn:Ev.
      * exfalso. apply Ha. intros a' Ea' _. congruence.
      * destruct a as [|c a].
        -- exfalso. apply Ha. intros a' Ea' Hne. congruence.
        -- repeat split; try discriminate. exact F4.
    + exfalso. apply Ha. intros a Ea. congruence.
  - destruct invalid_column_facts as (F1 & F2 & F3 & _).
    repeat split; try assumption.
    exists pre, t, post. repeat split; try assumption.
    right. right. now repeat split.
Qed.

Lemma invalid_identifier_error_witness :
  ~ Forall line_ok (query_tables (u "t - 2nd : id"))
  /\ is_error (generate_sql (u "t - 2nd : id")) = true
  /\ startswith (u "SELECT") (generate_sql (u "t - 2nd : id")) = false.
Proof.
  assert (H : ~ Forall line_ok (query_tables (u "t - 2nd : id"))).
  { intros H. apply first_error_none in H. vm_compute in H. discriminate. }
  split; [exact H|].
  pose proof (invalid_identifier_error (u "t - 2nd : id") H) as (A & B & _).
  split; [exact A | exact B].
Defined.

(** ** The empty query *)

(** C5. The empty-query message is returned exactly when the list of lines
    of the trimmed input is empty, and that list never is: no input, the
    empty and the blank ones included, makes the generator return the
    empty-query message.  A blank input has the single line [""], whose
    empty table name fails the identifier check. *)
Theorem empty_query_unreachable (query : str) :
  split [LF] (strip query) <> []
  /\ (generate_sql query = Msg.empty_query <-> split [LF] (strip query) = [])
  /\ generate_sql query <> Msg.empty_query
  /\ (forallb isspace query = true ->
      query_tables query = [parse_table_line []]
      /\ is_valid_name (name (parse_table_line [])) = false
      /\ generate_sql query = Msg.invalid_table []).
Proof.
  assert (Hlines : split [LF] (strip query) <> []) by apply split_nonempty.
  assert (Hne : generate_sql query <> Msg.empty_query).
  { rewrite generate_sql_tables.
    destruct (first_error (query_tables query)) as [e|] eqn:E.
    - destruct (first_error_some _ _ E) as (t & _ & Ht).
      destruct (line_error_cases t e Ht)
        as [(_ & ->)|[(_ & _ & ->)|(_ & _ & _ & ->)]].
      + apply invalid_table_not_empty.
      + apply invalid_alias_not_empty.
      + apply invalid_column_not_empty.
    - destruct (join_missing (query_tables query)).
      + vm_compute. discriminate.
      + apply render_not_message. }
  split; [exact Hlines|]. split; [|split; [exact Hne|]].
  - split; intros H; contradiction.
  - intros Hblank. unfold generate_sql, query_tables.
    rewrite (strip_blank query Hblank).
    repeat split; vm_compute; reflexivity.
Qed.

Lemma empty_query_unreachable_witness :
  forallb isspace (u "  " ++ [9%N; LF; 160%N]) = true
  /\ generate_sql (u "  " ++ [9%N; LF; 160%N]) = Msg.invalid_table []
  /\ generate_sql [] = Msg.invalid_table [].
Proof.
  split; [reflexivity|]. split.
  - exact (proj2 (proj2 (proj2 (proj2 (proj2
             (empty_query_unreachable (u "  " ++ [9%N; LF; 160%N])))) eq_refl))).
  - exact (proj2 (proj2 (proj2 (proj2 (proj2
             (empty_query_unreachable []))) eq_refl))).
Defined.

(** ** The parser *)

Section Parser.

Lemma alias_index_after_dash (parts : list str) :
  (if mem (u "-") parts then
     if index (u "-") parts + 1 <? length parts
     then Some (item parts (index (u "-") parts + 1))
     else None
   else None) = alias_after_dash parts.
Proof.
  induction parts as [|p r IH]; [reflexivity|].
  cbn [mem existsb index alias_after_dash]. fold (mem (u "-") r).
  destruct (eqb p (u "-")) eqn:E.
  - apply eqb_eq in E. subst p. rewrite eqb_refl. cbn [orb].
    destruct r as [|a r]; reflexivity.
  - assert (E' : eqb (u "-") p = false).
    { apply eqb_neq. apply eqb_neq in E. congruence. }
    rewrite E'. cbn [orb]. rewrite <- IH.
    destruct (mem (u "-") r); [|reflexivity].
    replace (S (index (u "-") r) + 1 <? length (p :: r))
      with (index (u "-") r + 1 <? length r) by reflexivity.
    destruct (index (u "-") r + 1 <? length r); [|reflexivity].
    reflexivity.
Qed.

Lemma alias_after_dash_found (pre : list str) (a : str) (post : list str) :
  ~ In (u "-") pre -> alias_after_dash (pre ++ u "-" :: a :: post) = Some a.
Proof.
  induction pre as [|p pre IH]; intros H; [reflexivity|].
  cbn [app alias_after_dash].
  destruct (eqb p (u "-")) eqn:E.
  - apply eqb_eq in E. exfalso. apply H. now left.
  - apply IH. intros Hin. apply H. now right.
Qed.

Lemma alias_after_dash_last (pre : list str) :
  ~ In (u "-") pre -> alias_after_dash (pre ++ [u "-"]) = None.
Proof.
  induction pre as [|p pre IH]; intros H; [reflexivity|].
  cbn [app alias_after_dash].
  destruct (eqb p (u "-")) eqn:E.
  - apply eqb_eq in E. exfalso. apply H. now left.
  - apply IH. intros Hin. apply H. now right.
Qed.

Lemma alias_after_dash_absent (tokens : list str) :
  ~ In (u "-") tokens -> alias_after_dash tokens = None.
Proof.
  induction tokens as [|p r IH]; intros H; [reflexivity|].
  cbn [alias_after_dash].
  destruct (eqb p (u "-")) eqn:E.
  - apply eqb_eq in E. exfalso. apply H. now left.
  - apply IH. intros Hin. apply H. now right.
Qed.

Lemma parse_alias (line : str) :
  alias (parse_table_line line) = alias_after_dash (spec_tokens line).
Proof.
  unfold parse_table_line, spec_tokens, segments. cbn [alias].
  apply alias_index_after_dash.
Qed.

End Parser.

(** C7, the claim as stated fails: the table-spec segment is not cut at
    whitespace but at every single space.  In [t -  x] (two spaces after the
    dash) the whitespace tokens are [t], [-], [x], whose alias would be [x];
    the parser's tokens are [t], [-], [""], [x] and its alias is the empty
    string. *)
Lemma whitespace_tokens_differ :
  split_ws (item (segments (u "t -  x")) 0) = [u "t"; u "-"; u "x"]
  /\ alias_after_dash (split_ws (item (segments (u "t -  x")) 0)) = Some (u "x")
  /\ spec_tokens (u "t -  x") = [u "t"; u "-"; []; u "x"]
  /\ alias (parse_table_line (u "t -  x")) = Some []
  /\ alias (parse_table_line (u "t -  x"))
     <> alias_after_dash (split_ws (item (segments (u "t -  x")) 0)).
Proof.
  repeat split; try (vm_compute; reflexivity).
  vm_compute. discriminate.
Qed.

(** C7, amended.  The parser cuts the table-spec segment at every single
    space character (other whitespace does not separate, adjacent spaces
    give empty tokens).  The first token, which always exists, is the table
    name.  The alias is the token after the first occurrence of the token
    [-]; it is [None] when that [-] is the last token, which is no error
    here, and when there is no [-]. *)
Theorem name_and_alias_tokens (line : str) :
  spec_tokens line <> []
  /\ name (parse_table_line line) = hd [] (spec_tokens line)
  /\ alias (parse_table_line line) = alias_after_dash (spec_tokens line)
  /\ (forall pre a post,
        spec_tokens line = pre ++ u "-" :: a :: post -> ~ In (u "-") pre ->
        alias (parse_table_line line) = Some a)
  /\ (forall pre,
        spec_tokens line = pre ++ [u "-"] -> ~ In (u "-") pre ->
        alias (parse_table_line line) = None)
  /\ (~ In (u "-") (spec_tokens line) -> alias (parse_table_line line) = None).
Proof.
  split; [apply split_nonempty|]. split.
  - unfold parse_table_line, spec_tokens, segments, item. cbn [name].
    now destruct (split (u " ") _).
  - split; [apply parse_alias|]. rewrite parse_alias. repeat split.
    + intros pre a post -> H. now apply alias_after_dash_found.
    + intros pre -> H. now apply alias_after_dash_last.
    + apply alias_after_dash_absent.
Qed.

Lemma name_and_alias_tokens_witness :
  spec_tokens (u "orders - o - p : id") = [u "orders"; u "-"; u "o"; u "-"; u "p"]
  /\ alias (parse_table_line (u "orders - o - p : id")) = Some (u "o")
  /\ alias (parse_table_line (u "orders - : id")) = None.
Proof.
  split; [vm_compute; reflexivity|]. split.
  - refine (proj1 (proj2 (proj2 (proj2
              (name_and_alias_tokens (u "orders - o - p : id")))))
              [u "orders"] (u "o") [u "-"; u "p"] _ _).
    + vm_compute. reflexivity.
    + intros [H|[]]. vm_compute in H. discriminate.
  - refine (proj1 (proj2 (proj2 (proj2 (proj2
              (name_and_alias_tokens (u "orders - : id"))))))
              [u "orders"] _ _).
    + vm_compute. reflexivity.
    + intros [H|[]]. vm_compute in H. discriminate.
Defined.

(** ** Columns *)

(** C6, the claim as stated fails in one direction: the line [t : *] has a
    columns segment that is present and not empty, and its columns are
    [["*"]] all the same. *)
Lemma explicit_wildcard_segment :
  ~ (columns (parse_table_line (u "t : *")) = [u "*"]
     <-> columns_segment (u "t : *") = None
         \/ columns_segment (u "t : *") = Some []).
Proof.
  intros [H _]. destruct (H eq_refl) as [E|E]; vm_compute in E; discriminate.
Qed.

(** C6, amended.  When the columns segment of a line is absent or empty the
    parsed columns are [["*"]], and the table contributes
    [<alias-or-name>.*] to the SELECT list of every query the line is part
    of; otherwise the columns are the whitespace-separated tokens of the
    segment (which are [["*"]] too when the segment spells the wildcard). *)
Theorem columns_default (line : str) :
  (columns_segment line = None \/ columns_segment line = Some [] ->
   columns (parse_table_line line) = [u "*"]
   /\ formatted_columns (parse_table_line line)
      = [qualifier (parse_table_line line) ++ u ".*"]
   /\ forall lines, In line lines ->
        In (qualifier (parse_table_line line) ++ u ".*")
           (select_columns (final_clauses (map parse_table_line lines))))
  /\ (forall seg, columns_segment line = Some seg -> seg <> [] ->
      columns (parse_table_line line) = split_ws seg).
Proof.
  assert (Hcols : columns (parse_table_line line) =
                  match columns_segment line with
                  | None | Some [] => [u "*"]
                  | Some seg => split_ws seg
                  end).
  { unfold parse_table_line, columns_segment, segments, item. cbn [columns].
    destruct (split (u " : ") (strip line)) as [|s0 [|s1 r]]; try reflexivity.
    destruct s1; reflexivity. }
  split.
  - intros H.
    assert (Hstar : columns (parse_table_line line) = [u "*"]).
    { rewrite Hcols. destruct H as [-> | ->]; reflexivity. }
    assert (Hfmt : formatted_columns (parse_table_line line)
                   = [qualifier (parse_table_line line) ++ u ".*"]).
    { unfold formatted_columns. rewrite Hstar. reflexivity. }
    split; [exact Hstar|]. split; [exact Hfmt|].
    intros lines Hin. rewrite select_columns_final. apply in_concat.
    exists (formatted_columns (parse_table_line line)). split.
    + apply in_map. now apply in_map.
    + rewrite Hfmt. now left.
  - intros seg Hseg Hne. rewrite Hcols, Hseg. destruct seg; [contradiction|].
    reflexivity.
Qed.

Lemma columns_default_witness :
  columns_segment (u "orders - o") = None
  /\ columns (parse_table_line (u "orders - o")) = [u "*"]
  /\ columns_segment (u "t :  : t.id = o.id") = Some []
  /\ formatted_columns (parse_table_line (u "t :  : t.id = o.id")) = [u "t.*"]
  /\ columns (parse_table_line (u "t : a  b")) = [u "a"; u "b"].
Proof.
  split; [reflexivity|]. split.
  - exact (proj1 (proj1 (columns_default (u "orders - o")) (or_introl eq_refl))).
  - split; [reflexivity|]. split.
    + exact (proj1 (proj2 (proj1 (columns_default (u "t :  : t.id = o.id"))
                                 (or_intror eq_refl)))).
    + refine (proj2 (columns_default (u "t : a  b")) (u "a  b") eq_refl _).
      discriminate.
Defined.

(** ** The join condition of the first table *)

(** C10. The join condition of the first descriptor does not influence
    the result: two inputs whose descriptors differ only in the join
    condition of the first one give the same output, be it SQL or an
    error. *)
Theorem first_join_condition_ignored
    (query query' : str) (t : table) (rest : list table) (jc : option str) :
  query_tables query = t :: rest ->
  query_tables query' = with_join t jc :: rest ->
  generate_sql query = generate_sql query'.
Proof.
  intros H H'. rewrite !generate_sql_tables, H, H'. reflexivity.
Qed.

Lemma first_join_condition_ignored_witness :
  generate_sql (u "a - x : id" ++ [LF] ++ u "b : n : b.id = x.id")
  = generate_sql (u "a - x : id : x.id = 1" ++ [LF] ++ u "b : n : b.id = x.id").
Proof.
  apply (first_join_condition_ignored
           (u "a - x : id" ++ [LF] ++ u "b : n : b.id = x.id")
           (u "a - x : id : x.id = 1" ++ [LF] ++ u "b : n : b.id = x.id")
           (parse_table_line (u "a - x : id"))
           [parse_table_line (u "b : n : b.id = x.id")]
           (Some (u "x.id = 1"))); vm_compute; reflexivity.
Defined.

(** ** Trimming *)

Section Trimming.

Lemma lstrip_lstrip (s : str) : lstrip (lstrip s) = lstrip s.
Proof.
  induction s as [|c r IH]; [reflexivity|]. cbn [lstrip].
  destruct (isspace c) eqn:E; [exact IH|]. cbn [lstrip]. now rewrite E.
Qed.

Lemma lstrip_snoc (s : str) (c : char) :
  isspace c = false -> lstrip (s ++ [c]) = lstrip s ++ [c].
Proof.
  intros Hc. induction s as [|x r IH]; cbn [app lstrip].
  - now rewrite Hc.
  - destruct (isspace x); [exact IH | reflexivity].
Qed.

Lemma rstrip_cons (c : char) (r : str) :
  isspace c = false -> rstrip (c :: r) = c :: rstrip r.
Proof.
  intros Hc. unfold rstrip. cbn [rev].
  now rewrite (lstrip_snoc _ c Hc), rev_app_distr.
Qed.

Lemma rstrip_rstrip (s : str) : rstrip (rstrip s) = rstrip s.
Proof. unfold rstrip. now rewrite rev_involutive, lstrip_lstrip. Qed.

(** What is left of a string trimmed on the left does not change when it
    is trimmed on the right and then on the left again. *)
Lemma lstrip_rstrip_lstrip (s : str) :
  lstrip (rstrip (lstrip s)) = rstrip (lstrip s).
Proof.
  induction s as [|c r IH]; [reflexivity|]. cbn [lstrip].
  destruct (isspace c) eqn:E; [exact IH|].
  rewrite (rstrip_cons c r E). cbn [lstrip]. now rewrite E.
Qed.

Lemma strip_strip (s : str) : strip (strip s) = strip s.
Proof.
  unfold strip. now rewrite lstrip_rstrip_lstrip, rstrip_rstrip.
Qed.

Lemma In_lstrip (c : char) (s : str) : In c (lstrip s) -> In c s.
Proof.
  induction s as [|x r IH]; cbn [lstrip]; [tauto|].
  destruct (isspace x); [|tauto]. intros H. right. now apply IH.
Qed.

Lemma In_strip (c : char) (s : str) : In c (strip s) -> In c s.
Proof.
  unfold strip, rstrip. intros H. apply In_lstrip.
  apply in_rev in H. apply In_lstrip in H. now apply in_rev in H.
Qed.

End Trimming.

(** X1. Trimming is absorbed: the generator and the parser give the same
    result on an input and on the input trimmed beforehand, so surrounding
    whitespace (blank lines before and after the query included) never
    changes the answer. *)
Theorem trimming_absorbed (s : str) :
  generate_sql (strip s) = generate_sql s
  /\ parse_table_line (strip s) = parse_table_line s
  /\ query_tables (strip s) = query_tables s.
Proof.
  unfold generate_sql, parse_table_line, query_tables.
  now rewrite strip_strip.
Qed.

(** X2. The handler answers with the heading, the opening fence, the result
    of the generator on the text as received, and the closing fence: its own
    trimming of the text changes nothing, and an error message is fenced
    like a statement. *)
Theorem process_sql_query_answer (text : str) :
  process_sql_query text
  = u "Генерируемый SQL запрос:" ++ [LF] ++ u "```sql" ++ [LF]
    ++ generate_sql text ++ u "```"
  /\ process_sql_query (strip text) = process_sql_query text
  /\ contains (generate_sql text) (process_sql_query text) = true.
Proof.
  assert (E : process_sql_query text
              = u "Генерируемый SQL запрос:" ++ [LF] ++ u "```sql" ++ [LF]
                ++ generate_sql text ++ u "```").
  { unfold process_sql_query, generate_sql. cbv zeta.
    now rewrite strip_strip. }
  split; [exact E|]. split.
  - unfold process_sql_query. cbv zeta. now rewrite strip_strip.
  - rewrite E.
    rewrite (app_assoc (u "Генерируемый SQL запрос:")).
    rewrite (app_assoc _ (u "```sql")).
    rewrite (app_assoc _ [LF]).
    apply contains_middle.
Qed.

(** ** Cutting and joining *)

Section Cutting.

Lemma startswith_skipn (p s : str) :
  startswith p s = true -> s = p ++ skipn (length p) s.
Proof.
  revert s. induction p as [|x p IH]; intros s H; [reflexivity|].
  destruct s as [|y s]; [discriminate|]. cbn [startswith] in H.
  apply andb_true_iff in H as [Hx Hr]. apply N.eqb_eq in Hx. subst y.
  cbn [length skipn app]. f_equal. now apply IH.
Qed.

Lemma split_go_skip (sep : str) (k : nat) (s : str) :
  split_go sep k s = split_go sep 0 (skipn k s).
Proof.
  revert k. induction s as [|c r IH]; intros [|k]; try reflexivity.
  cbn [split_go skipn]. apply IH.
Qed.

Lemma join_cons (sep p : str) (rest : list str) :
  rest <> [] -> join sep (p :: rest) = p ++ sep ++ join sep rest.
Proof. destruct rest; [congruence | reflexivity]. Qed.

Lemma join_cons_head (sep : str) (c : char) (h : str) (t : list str) :
  join sep ((c :: h) :: t) = c :: join sep (h :: t).
Proof. destruct t; reflexivity. Qed.

Lemma join_split_bounded (sep : str) (n : nat) :
  sep <> [] ->
  forall s, length s <= n -> join sep (split_go sep 0 s) = s.
Proof.
  intros Hsep. induction n as [|n IH]; intros s Hlen.
  - destruct s; [reflexivity | simpl in Hlen; lia].
  - destruct s as [|c r]; [reflexivity|]. cbn [split_go].
    destruct (startswith sep (c :: r)) eqn:E.
    + destruct sep as [|x sep']; [congruence|].
      pose proof (startswith_skipn _ _ E) as Hs.
      cbn [length skipn app] in Hs. injection Hs as Hc Hr.
      replace (length (x :: sep') - 1) with (length sep')
        by (cbn [length]; lia).
      rewrite split_go_skip, join_cons by apply split_go_nonempty.
      rewrite IH.
      * cbn [app]. now rewrite <- Hr, <- Hc.
      * assert (length (skipn (length sep') r) <= length r)
          by (rewrite length_skipn; lia).
        simpl in Hlen. lia.
    + assert (Hr : join sep (split_go sep 0 r) = r)
        by (apply IH; simpl in Hlen; lia).
      destruct (split_go sep 0 r) as [|h t] eqn:Eg.
      * exfalso. exact (split_go_nonempty _ _ _ Eg).
      * rewrite join_cons_head. now rewrite Hr.
Qed.

(** [sep.join(s.split(sep)) == s] *)
Lemma join_split (sep s : str) : sep <> [] -> join sep (split sep s) = s.
Proof. intros H. now apply (join_split_bounded sep (length s) H). Qed.

(** The pieces of a cut are made of characters of the string. *)
Lemma In_split_go (sep : str) (c : char) (s : str) :
  forall k p, In p (split_go sep k s) -> In c p -> In c s.
Proof.
  induction s as [|x r IH]; intros k p Hp Hc.
  - destruct Hp as [<- | []]. destruct Hc.
  - cbn [split_go] in Hp. destruct k as [|k].
    + destruct (startswith sep (x :: r)).
      * destruct Hp as [<- | Hp]; [destruct Hc|]. right. eauto.
      * destruct (split_go sep 0 r) as [|h t] eqn:Eg.
        -- destruct Hp as [<- | []]. destruct Hc as [<- | []]. now left.
        -- destruct Hp as [<- | Hp].
           ++ destruct Hc as [<- | Hc]; [now left|]. right.
              apply (IH 0 h); [rewrite Eg; now left | assumption].
           ++ right. apply (IH 0 p); [rewrite Eg; now right | assumption].
    + right. eauto.
Qed.

(** Cut at a single character, no piece contains that character. *)
Lemma split_char_free (x : char) (s : str) :
  forall p, In p (split [x] s) -> ~ In x p.
Proof.
  unfold split. induction s as [|c r IH]; intros p Hp.
  - destruct Hp as [<- | []]. tauto.
  - cbn [split_go startswith length Nat.sub] in Hp.
    destruct (x =? c)%N eqn:E; cbn [andb] in Hp.
    + destruct Hp as [<- | Hp]; [tauto | now apply IH].
    + apply N.eqb_neq in E.
      destruct (split_go [x] 0 r) as [|h t] eqn:Eg.
      * destruct Hp as [<- | []]. intros [H | []]. congruence.
      * destruct Hp as [<- | Hp].
        -- intros [H | H]; [congruence|]. revert H. apply IH. now left.
        -- apply IH. now right.
Qed.

(** The tokens of [split()] are not empty and hold no whitespace; they are
    made of characters of the string. *)
Lemma split_ws_tokens (s : str) :
  forall p, In p (split_ws s) ->
    p <> [] /\ forallb (fun c => negb (isspace c)) p = true
    /\ forall c, In c p -> In c s.
Proof.
  induction s as [|x r IH]; intros p Hp; [destruct Hp|].
  cbn [split_ws] in Hp. destruct (isspace x) eqn:Ex.
  - destruct (IH p Hp) as (A & B & C). repeat split; try assumption.
    intros c Hc. right. now apply C.
  - destruct r as [|y r'].
    + destruct Hp as [<- | []]. repeat split; [discriminate | |].
      * cbn. now rewrite Ex.
      * intros c [<- | []]. now left.
    + destruct (isspace y) eqn:Ey.
      * destruct Hp as [<- | Hp].
        -- repeat split; [discriminate | |].
           ++ cbn. now rewrite Ex.
           ++ intros c [<- | []]. now left.
        -- destruct (IH p Hp) as (A & B & C). repeat split; try assumption.
           intros c Hc. right. now apply C.
      * destruct (split_ws (y :: r')) as [|h t] eqn:Eg.
        -- destruct Hp as [<- | []]. repeat split; [discriminate | |].
           ++ cbn. now rewrite Ex.
           ++ intros c [<- | []]. now left.
        -- destruct Hp as [<- | Hp].
           ++ destruct (IH h (or_introl eq_refl)) as (A & B & C).
              repeat split; [discriminate | |].
              ** cbn [forallb]. now rewrite Ex, B.
              ** intros c [<- | Hc]; [now left | right; now apply C].
           ++ destruct (IH p (or_intror Hp)) as (A & B & C).
              repeat split; try assumption.
              intros c Hc. right. now apply C.
Qed.

Lemma In_item (c : char) (xs : list str) (i : nat) :
  In c (item xs i) -> exists p, In p xs /\ In c p.
Proof.
  unfold item. intros H.
  destruct (nth_in_or_default i xs []) as [Hin | E].
  - now exists (nth i xs []).
  - rewrite E in H. destruct H.
Qed.

End Cutting.

(** X7. Cutting loses nothing: the segments of a line joined by [" : "]
    give back the trimmed line, the tokens of the first segment joined by
    a space give back that segment, and the lines of a query joined by line
    feeds give back the trimmed query. *)
Theorem segments_join (s : str) :
  join (u " : ") (segments s) = strip s
  /\ join (u " ") (spec_tokens s) = item (segments s) 0
  /\ join [LF] (split [LF] (strip s)) = strip s.
Proof.
  unfold segments, spec_tokens.
  repeat split; apply join_split; discriminate.
Qed.

(** ** Valid names *)

Section ValidNames.

Lemma tail_then_end_word (s : str) :
  forallb class_tail s = true -> tail_then_end s = true.
Proof.
  induction s as [|c r IH]; [reflexivity|]. cbn [forallb tail_then_end].
  intros H. apply andb_true_iff in H as [Hc Hr]. now rewrite Hc, IH.
Qed.

Lemma tail_then_end_word_lf (s : str) :
  forallb class_tail s = true -> tail_then_end (s ++ [LF]) = true.
Proof.
  induction s as [|c r IH]; [reflexivity|]. cbn [forallb app tail_then_end].
  intros H. apply andb_true_iff in H as [Hc Hr]. now rewrite Hc, IH.
Qed.

Lemma class_tail_not_lf (s : str) : forallb class_tail s = true -> ~ In LF s.
Proof.
  intros H Hin. rewrite forallb_forall in H. specialize (H LF Hin).
  discriminate.
Qed.

Lemma regex_identifier (s : str) :
  VALID_NAME_REGEX s = true <->
  identifier s = true \/ exists w, s = w ++ [LF] /\ identifier w = true.
Proof.
  split.
  - destruct s as [|c r]; [discriminate|]. cbn [VALID_NAME_REGEX].
    intros H. apply andb_true_iff in H as [Hc Hr].
    destruct (tail_then_end_shape r Hr) as (body & Hb & [-> | ->]).
    + left. cbn [identifier]. now rewrite Hc, Hb.
    + right. exists (c :: body). split; [reflexivity|].
      cbn [identifier]. now rewrite Hc, Hb.
  - intros [H | (w & -> & H)].
    + destruct s as [|c r]; [discriminate|]. cbn [identifier] in H.
      apply andb_true_iff in H as [Hc Hr]. cbn [VALID_NAME_REGEX].
      now rewrite Hc, tail_then_end_word.
    + destruct w as [|c r]; [discriminate|]. cbn [identifier] in H.
      apply andb_true_iff in H as [Hc Hr]. cbn [app VALID_NAME_REGEX].
      now rewrite Hc, tail_then_end_word_lf.
Qed.

Lemma identifier_no_lf (s : str) : identifier s = true -> ~ In LF s.
Proof.
  destruct s as [|c r]; [discriminate|]. cbn [identifier].
  intros H. apply andb_true_iff in H as [Hc Hr]. intros [E | Hin].
  - subst c. discriminate.
  - exact (class_tail_not_lf r Hr Hin).
Qed.

(** A valid name without line feed is an identifier. *)
Lemma valid_identifier (s : str) :
  ~ In LF s -> is_valid_name s = true -> identifier s = true.
Proof.
  intros Hlf H. unfold is_valid_name in H. apply andb_true_iff in H as [H _].
  apply regex_identifier in H as [H | (w & -> & _)]; [exact H|].
  exfalso. apply Hlf. apply in_or_app. right. now left.
Qed.

End ValidNames.

(** X5. [is_valid_name] accepts exactly the identifiers (a letter or
    underscore followed by letters, digits and underscores), with or
    without one line feed at the end, whose upper case is not a reserved
    word; in particular the empty string is rejected. *)
Theorem is_valid_name_exactly (s : str) :
  (is_valid_name s = true <->
   (identifier s = true \/ exists w, s = w ++ [LF] /\ identifier w = true)
   /\ mem (upper s) SQL_RESERVED_KEYWORDS = false)
  /\ is_valid_name [] = false.
Proof.
  split; [|reflexivity].
  unfold is_valid_name. rewrite andb_true_iff, negb_true_iff, regex_identifier.
  reflexivity.
Qed.

Lemma is_valid_name_exactly_witness :
  identifier (u "order_date") = true
  /\ mem (upper (u "order_date")) SQL_RESERVED_KEYWORDS = false
  /\ is_valid_name (u "order_date") = true.
Proof.
  split; [reflexivity|]. split; [reflexivity|].
  apply (proj2 (proj1 (is_valid_name_exactly (u "order_date")))).
  split; [left; reflexivity | reflexivity].
Defined.

(** ** What the parser hands to the validator *)

Section ParsedFields.

Lemma name_chars (line : str) (c : char) :
  In c (name (parse_table_line line)) -> In c line.
Proof.
  unfold parse_table_line. cbn [name]. intros H.
  apply In_item in H as (p & Hp & H).
  apply (In_split_go _ c _ 0 p Hp) in H.
  apply In_item in H as (p' & Hp' & H).
  apply (In_split_go _ c _ 0 p' Hp') in H. now apply In_strip.
Qed.

Lemma alias_chars (line a : str) (c : char) :
  alias (parse_table_line line) = Some a -> In c a -> In c line.
Proof.
  unfold parse_table_line. cbn [alias].
  destruct (mem _ _); [|discriminate]. destruct (_ <? _); [|discriminate].
  intros E H. injection E as <-.
  apply In_item in H as (p & Hp & H).
  apply (In_split_go _ c _ 0 p Hp) in H.
  apply In_item in H as (p' & Hp' & H).
  apply (In_split_go _ c _ 0 p' Hp') in H. now apply In_strip.
Qed.

Lemma columns_tokens (line col : str) :
  In col (columns (parse_table_line line)) ->
  col <> [] /\ forallb (fun c => negb (isspace c)) col = true.
Proof.
  unfold parse_table_line. cbn [columns].
  destruct (_ && _).
  - intros H. apply split_ws_tokens in H. tauto.
  - intros [<- | []]. split; [discriminate | reflexivity].
Qed.

Lemma nth_error_item (xs : list str) (i : nat) :
  i < length xs -> nth_error xs i = Some (item xs i).
Proof. intros H. unfold item. now apply nth_error_nth'. Qed.

Lemma index_found (x : str) (xs : list str) :
  mem x xs = true ->
  index x xs < length xs /\ item xs (index x xs) = x.
Proof.
  unfold mem. induction xs as [|y r IH]; [discriminate|].
  cbn [existsb index length]. destruct (eqb y x) eqn:E.
  - intros _. apply eqb_eq in E. subst y. split; [lia | reflexivity].
  - assert (E' : eqb x y = false).
    { apply eqb_neq. apply eqb_neq in E. congruence. }
    rewrite E'. cbn [orb]. intros H. destruct (IH H) as (A & B).
    split; [lia | exact B].
Qed.

End ParsedFields.

(** X9. The fields of a parsed line are normalised: the table name and the
    alias hold no space, every column is a non-empty token without
    whitespace, and the join condition is trimmed. *)
Theorem parsed_fields_normal (line : str) :
  ~ In 32%N (name (parse_table_line line))
  /\ (forall a, alias (parse_table_line line) = Some a -> ~ In 32%N a)
  /\ (forall col, In col (columns (parse_table_line line)) ->
        col <> [] /\ forallb (fun c => negb (isspace c)) col = true)
  /\ (forall jc, join_condition (parse_table_line line) = Some jc ->
        strip jc = jc).
Proof.
  assert (Htok : forall i, ~ In 32%N (item (spec_tokens line) i)).
  { intros i. unfold item.
    destruct (nth_in_or_default i (spec_tokens line) []) as [Hin | ->];
      [|tauto].
    unfold spec_tokens in Hin. exact (split_char_free 32%N _ _ Hin). }
  split; [exact (Htok 0)|]. split; [|split].
  - intros a. unfold parse_table_line. cbn [alias].
    destruct (mem _ _); [|discriminate]. destruct (_ <? _); [|discriminate].
    intros E. injection E as <-. apply Htok.
  - intros col. apply columns_tokens.
  - intros jc. unfold parse_table_line. cbn [join_condition].
    destruct (_ <? _); [|discriminate].
    intros E. injection E as <-. apply strip_strip.
Qed.

Lemma parsed_fields_normal_witness :
  join_condition (parse_table_line (u "b : m :   b.id = a.id  "))
  = Some (u "b.id = a.id")
  /\ strip (u "b.id = a.id") = u "b.id = a.id".
Proof.
  split; [vm_compute; reflexivity|].
  apply (proj2 (proj2 (proj2
           (parsed_fields_normal (u "b : m :   b.id = a.id  ")))) _).
  vm_compute. reflexivity.
Defined.

(** X11. Every subscript of the parser is within range: a line has a first
    segment, the segment has a first token, and when the token [-] occurs,
    [index] finds it at a position of the list, so that the position after
    it is either that of a token or the length of the list. *)
Theorem parser_subscripts_in_range (line : str) :
  0 < length (segments line)
  /\ 0 < length (spec_tokens line)
  /\ nth_error (spec_tokens line) 0 = Some (name (parse_table_line line))
  /\ (mem (u "-") (spec_tokens line) = true ->
      index (u "-") (spec_tokens line) < length (spec_tokens line)
      /\ nth_error (spec_tokens line) (index (u "-") (spec_tokens line))
         = Some (u "-")
      /\ alias (parse_table_line line)
         = nth_error (spec_tokens line) (index (u "-") (spec_tokens line) + 1)).
Proof.
  assert (Hs : 0 < length (segments line)).
  { unfold segments. pose proof (split_nonempty (u " : ") (strip line)).
    destruct (split _ _); [congruence | simpl; lia]. }
  assert (Ht : 0 < length (spec_tokens line)).
  { unfold spec_tokens. pose proof (split_nonempty (u " ") (item (segments line) 0)).
    destruct (split _ _); [congruence | simpl; lia]. }
  split; [exact Hs|]. split; [exact Ht|]. split.
  - rewrite (nth_error_item _ 0 Ht). reflexivity.
  - intros Hmem. destruct (index_found _ _ Hmem) as (A & B).
    split; [exact A|]. split.
    + rewrite (nth_error_item _ _ A). now rewrite B.
    + unfold parse_table_line. cbn [alias].
      fold (segments line). fold (spec_tokens line). rewrite Hmem.
      destruct (index (u "-") (spec_tokens line) + 1 <? length (spec_tokens line))
        eqn:E.
      * apply Nat.ltb_lt in E. now rewrite (nth_error_item _ _ E).
      * apply Nat.ltb_ge in E. symmetry. now apply nth_error_None.
Qed.

Lemma parser_subscripts_in_range_witness :
  mem (u "-") (spec_tokens (u "orders - o : id")) = true
  /\ alias (parse_table_line (u "orders - o : id"))
     = nth_error (spec_tokens (u "orders - o : id")) 2.
Proof.
  split; [reflexivity|].
  exact (proj2 (proj2 (proj2 (proj2 (proj2
           (parser_subscripts_in_range (u "orders - o : id")))) eq_refl))).
Defined.

(** X6. Inside the generator the validator only sees strings without line
    feed, so the names of a descriptor that passed the checks are
    identifiers in the strict sense: the table name, the alias when there is
    one, and every column but the wildcard. *)
Theorem checked_names_are_identifiers (query : str) (t : table) :
  In t (query_tables query) -> line_ok t ->
  identifier (name t) = true
  /\ (forall a, alias t = Some a -> a <> [] -> identifier a = true)
  /\ (forall col, In col (columns t) -> col <> u "*" -> identifier col = true).
Proof.
  unfold query_tables. intros Hin (Hn & Ha & Hc).
  apply in_map_iff in Hin as (line & <- & Hline).
  pose proof (split_char_free LF _ _ Hline) as Hlf.
  split; [|split].
  - apply valid_identifier; [|exact Hn].
    intros H. apply Hlf. exact (name_chars line LF H).
  - intros a Ea Hne. apply valid_identifier; [|now apply Ha].
    intros H. apply Hlf. exact (alias_chars line a LF Ea H).
  - intros col Hcol Hne. apply valid_identifier; [|now apply Hc].
    intros H. destruct (columns_tokens line col Hcol) as (_ & Hws).
    rewrite forallb_forall in Hws. specialize (Hws LF H). discriminate.
Qed.

Lemma checked_names_are_identifiers_witness :
  identifier (name (parse_table_line (u "orders - o : id total"))) = true.
Proof.
  refine (proj1 (checked_names_are_identifiers
            (u "orders - o : id total")
            (parse_table_line (u "orders - o : id total")) _ _)).
  - left. reflexivity.
  - apply line_error_none. vm_compute. reflexivity.
Defined.

(** X8. Only the first three segments of a line are consulted: two lines
    whose segments agree up to the third are parsed to the same
    descriptor. *)
Theorem only_three_segments (l l' : str) :
  firstn 3 (segments l) = firstn 3 (segments l') ->
  parse_table_line l = parse_table_line l'.
Proof.
  unfold parse_table_line, segments.
  generalize (split (u " : ") (strip l)) as L.
  generalize (split (u " : ") (strip l')) as L'.
  intros L' L H.
  destruct L as [|a [|b [|c L]]]; destruct L' as [|a' [|b' [|c' L']]];
    cbn [firstn] in H; try discriminate;
    try (injection H; intros; subst); reflexivity.
Qed.

Lemma only_three_segments_witness :
  parse_table_line (u "t : a : t.id = 1 : more : and more")
  = parse_table_line (u "t : a : t.id = 1").
Proof.
  apply (only_three_segments (u "t : a : t.id = 1 : more : and more")
                             (u "t : a : t.id = 1")).
  vm_compute. reflexivity.
Defined.

(** X10. A blank line inside a query is an error: when the lines before it
    are in order, the generator reports an invalid table name, the empty
    one. *)
Theorem blank_line_error (query : str) (pre : list str) (line : str)
    (post : list str) :
  split [LF] (strip query) = pre ++ line :: post ->
  Forall line_ok (map parse_table_line pre) ->
  forallb isspace line = true ->
  generate_sql query = Msg.invalid_table [].
Proof.
  intros Hs Hpre Hblank.
  rewrite generate_sql_tables. unfold query_tables.
  rewrite Hs, map_app. cbn [map].
  rewrite (first_error_skip _ _ _ Hpre).
  assert (E : parse_table_line line = parse_table_line []).
  { unfold parse_table_line. now rewrite (strip_blank line Hblank). }
  rewrite E. vm_compute. reflexivity.
Qed.

Lemma blank_line_error_witness :
  generate_sql (u "a : x" ++ [LF] ++ u "  " ++ [LF] ++ u "b : y : a.id = b.id")
  = Msg.invalid_table [].
Proof.
  apply (blank_line_error
           (u "a : x" ++ [LF] ++ u "  " ++ [LF] ++ u "b : y : a.id = b.id")
           [u "a : x"] (u "  ") [u "b : y : a.id = b.id"]).
  - vm_compute. reflexivity.
  - apply first_error_none. vm_compute. reflexivity.
  - reflexivity.
Defined.

(** ** The statement *)

Section Statement.

Lemma query_ok_checks (query : str) :
  query_ok query <->
  first_error (query_tables query) = None
  /\ join_missing (query_tables query) = false.
Proof.
  unfold query_ok. rewrite first_error_none. split.
  - intros (H & Hj). split; [exact H|].
    destruct (join_missing (query_tables query)) eqn:E; [|reflexivity].
    apply join_missing_lacks in E as (i & Hi). exfalso. exact (Hj i Hi).
  - intros (H & Hj). split; [exact H|]. intros i Hi.
    assert (E : join_missing (query_tables query) = true)
      by (apply join_missing_lacks; now exists i).
    congruence.
Qed.

Lemma first_error_is_error (ts : list table) (e : str) :
  first_error ts = Some e ->
  is_error e = true /\ startswith (u "SELECT") e = false.
Proof.
  intros E. destruct (first_error_some _ _ E) as (t & _ & Ht).
  destruct (line_error_cases t e Ht)
    as [(_ & ->)|[(_ & _ & ->)|(_ & _ & _ & ->)]].
  - destruct (invalid_table_facts (name t)) as (A & B & _). now split.
  - destruct (invalid_alias_facts (fmt (alias t))) as (A & B & _). now split.
  - destruct invalid_column_facts as (A & B & _). now split.
Qed.

Lemma query_tables_nonempty (query : str) : query_tables query <> [].
Proof.
  unfold query_tables. intros E. apply map_eq_nil in E.
  exact (split_nonempty _ _ E).
Qed.

Lemma join_nil_concat (parts : list str) : join [] parts = concat parts.
Proof.
  induction parts as [|p [|q r] IH]; [reflexivity | |].
  - cbn [join concat]. now rewrite app_nil_r.
  - cbn [join concat app] in *. now rewrite IH.
Qed.

(** The second loop after the first table: nothing but appending. *)
Lemma fold_render_later (ts : list table) :
  forall k st,
    fold_left render_step (combine (seq (S k) (length ts)) ts) st
    = {| select_columns :=
           select_columns st ++ concat (map formatted_columns ts);
         from_clause := from_clause st;
         join_clauses := join_clauses st ++ map join_text ts |}.
Proof.
  induction ts as [|t rest IH]; intros k st;
    cbn [length seq combine fold_left map concat].
  - rewrite !app_nil_r. now destruct st.
  - rewrite IH. unfold render_step at 1 2 3.
    cbn [fst snd Nat.eqb select_columns from_clause join_clauses].
    unfold join_text. now rewrite <- !app_assoc.
Qed.

Lemma render_sql_text (t : table) (rest : list table) :
  render (t :: rest) = sql_text t rest.
Proof.
  unfold render, final_clauses, enumerate.
  cbn [length seq combine fold_left]. rewrite fold_render_later.
  unfold render_step.
  cbn [fst snd Nat.eqb select_columns from_clause join_clauses app].
  rewrite join_nil_concat. reflexivity.
Qed.

Lemma contains_split (needle hay : str) :
  contains needle hay = true <->
  exists pre post, hay = pre ++ needle ++ post.
Proof.
  split.
  - induction hay as [|c r IH]; cbn [contains]; intros H.
    + rewrite orb_false_r in H. destruct needle; [|discriminate].
      now exists [], [].
    + apply orb_true_iff in H as [H | H].
      * exists [], (skipn (length needle) (c :: r)).
        exact (startswith_skipn _ _ H).
      * destruct (IH H) as (pre & post & ->). now exists (c :: pre), post.
  - intros (pre & post & ->). apply contains_middle.
Qed.

Lemma contains_trans (a b c : str) :
  contains a b = true -> contains b c = true -> contains a c = true.
Proof.
  rewrite !contains_split. intros (p1 & q1 & ->) (p2 & q2 & ->).
  exists (p2 ++ p1), (q1 ++ q2). now rewrite <- !app_assoc.
Qed.

End Statement.

(** X3. Success is recognisable: the result opens with the error word
    exactly when a line violates a per-line invariant or a join condition
    is missing; otherwise it opens with [SELECT ] and ends with a
    semicolon.  No third kind of result exists. *)
Theorem result_recognisable (query : str) :
  (is_error (generate_sql query) = false <-> query_ok query)
  /\ (is_error (generate_sql query) = true ->
      startswith (u "SELECT") (generate_sql query) = false)
  /\ (is_error (generate_sql query) = false ->
      startswith (u "SELECT ") (generate_sql query) = true
      /\ exists body, generate_sql query = body ++ u ";").
Proof.
  rewrite query_ok_checks, generate_sql_tables.
  destruct (first_error (query_tables query)) as [e|] eqn:E.
  - destruct (first_error_is_error _ _ E) as (A & B).
    rewrite A. split; [|split].
    + split; [discriminate|]. intros (H & _). discriminate.
    + intros _. exact B.
    + discriminate.
  - destruct (join_missing (query_tables query)).
    + split; [|split].
      * split; [discriminate|]. intros (_ & H). discriminate.
      * reflexivity.
      * discriminate.
    + split; [|split].
      * split; [now split | reflexivity].
      * discriminate.
      * intros _. split; [reflexivity|].
      exists (u "SELECT" ++ u " "
              ++ join (u ", ") (select_columns (final_clauses (query_tables query)))
              ++ u " " ++ from_clause (final_clauses (query_tables query))
              ++ join [] (join_clauses (final_clauses (query_tables query)))).
      unfold render. cbv zeta. now rewrite <- !app_assoc.
Qed.

Lemma result_recognisable_witness :
  is_error (generate_sql (u "a : x" ++ [LF] ++ u "b : y")) = true
  /\ startswith (u "SELECT") (generate_sql (u "a : x" ++ [LF] ++ u "b : y"))
     = false.
Proof.
  split; [reflexivity|].
  exact (proj1 (proj2 (result_recognisable (u "a : x" ++ [LF] ++ u "b : y")))
               eq_refl).
Defined.

(** X4. The statement of a query that passes every check: the SELECT list
    holds the qualified columns of all tables in input order, separated by
    [", "]; the first table gives the FROM clause; every later table gives
    one JOIN line, in input order; a semicolon ends it. *)
Theorem statement_of_query (query : str) :
  query_ok query ->
  exists t rest,
    query_tables query = t :: rest
    /\ generate_sql query = sql_text t rest.
Proof.
  intros H. apply query_ok_checks in H as (He & Hj).
  rewrite generate_sql_tables, He, Hj.
  destruct (query_tables query) as [|t rest] eqn:E.
  - exfalso. exact (query_tables_nonempty query E).
  - exists t, rest. split; [reflexivity | apply render_sql_text].
Qed.

Lemma statement_of_query_witness :
  exists t rest,
    query_tables (u "a - x : id n" ++ [LF] ++ u "b : m : b.id = x.id")
    = t :: rest
    /\ generate_sql (u "a - x : id n" ++ [LF] ++ u "b : m : b.id = x.id")
       = sql_text t rest.
Proof.
  apply (statement_of_query
           (u "a - x : id n" ++ [LF] ++ u "b : m : b.id = x.id")).
  apply query_ok_checks. split; vm_compute; reflexivity.
Defined.

(** X12. In the statement of a query that passes every check, every table
    after the first has a join condition that is not empty, its JOIN line
    is part of the statement, and the condition is copied as it was parsed,
    after [ ON ]. *)
Theorem joined_tables_rendered (query : str) (t : table) (rest : list table)
    (r : table) :
  query_ok query -> query_tables query = t :: rest -> In r rest ->
  exists jc,
    join_condition r = Some jc /\ jc <> []
    /\ contains (join_text r) (generate_sql query) = true
    /\ contains (u " ON " ++ jc) (generate_sql query) = true.
Proof.
  intros Hok Hts Hr.
  assert (Hjc : truthy_opt (join_condition r) = true).
  { destruct (truthy_opt (join_condition r)) eqn:E; [reflexivity|].
    destruct (In_nth_error _ _ Hr) as (i & Hi).
    exfalso. apply (proj2 Hok (S i)). split; [lia|].
    exists r. rewrite Hts. now split. }
  destruct (join_condition r) as [jc|] eqn:Ejc; [|discriminate].
  exists jc. split; [reflexivity|]. split; [now destruct jc|].
  assert (Hgen : generate_sql query = sql_text t rest).
  { apply query_ok_checks in Hok as (He & Hj).
    rewrite generate_sql_tables, He, Hj, Hts. apply render_sql_text. }
  assert (Hline : contains (join_text r) (generate_sql query) = true).
  { rewrite Hgen. apply contains_split.
    apply in_split in Hr as (l1 & l2 & ->).
    exists (u "SELECT "
            ++ join (u ", ")
                 (concat (map formatted_columns (t :: l1 ++ r :: l2)))
            ++ u " " ++ from_text t ++ concat (map join_text l1)),
           (concat (map join_text l2) ++ u ";").
    unfold sql_text. rewrite map_app, concat_app. cbn [map concat].
    now rewrite <- !app_assoc. }
  split; [exact Hline|].
  apply (contains_trans _ (join_text r)); [|exact Hline].
  apply contains_split. unfold join_text. rewrite Ejc. cbn [fmt].
  destruct (truthy_opt (alias r)).
  - exists ([LF] ++ u "JOIN " ++ name r ++ u " AS " ++ fmt (alias r)), [].
    now rewrite <- !app_assoc, app_nil_r.
  - exists ([LF] ++ u "JOIN " ++ name r), [].
    now rewrite <- !app_assoc, app_nil_r.
Qed.

Lemma joined_tables_rendered_witness :
  exists jc,
    join_condition (parse_table_line (u "b : m : b.id = x.id")) = Some jc
    /\ jc <> []
    /\ contains (join_text (parse_table_line (u "b : m : b.id = x.id")))
         (generate_sql (u "a - x : id n" ++ [LF] ++ u "b : m : b.id = x.id"))
       = true
    /\ contains (u " ON " ++ jc)
         (generate_sql (u "a - x : id n" ++ [LF] ++ u "b : m : b.id = x.id"))
       = true.
Proof.
  apply (joined_tables_rendered
           (u "a - x : id n" ++ [LF] ++ u "b : m : b.id = x.id")
           (parse_table_line (u "a - x : id n"))
           [parse_table_line (u "b : m : b.id = x.id")]
           (parse_table_line (u "b : m : b.id = x.id"))).
  - apply query_ok_checks. split; vm_compute; reflexivity.
  - vm_compute. reflexivity.
  - left. reflexivity.
Defined.

(** ** A single table without columns *)

Lemma columns_of_segment (line : str) :
  columns (parse_table_line line) =
  match columns_segment line with
  | None | Some [] => [u "*"]
  | Some seg => split_ws seg
  end.
Proof.
  unfold parse_table_line, columns_segment, segments, item. cbn [columns].
  destruct (split (u " : ") (strip line)) as [|s0 [|s1 r]]; try reflexivity.
  destruct s1; reflexivity.
Qed.

(** C4, amended.  On the input [products : : ] the generator returns the
    column error, the second segment [:] being read as a column.  A query
    of one line whose columns segment is absent or empty, whose table name
    is valid and which has no alias yields exactly
    [SELECT <name>.* FROM <name>;]: the empty columns segment defaults to
    the wildcard and the wildcard is qualified by the table name.  So do
    [products] and [products :  : x]. *)
Theorem wildcard_default_single_table :
  generate_sql (u "products : : ") = Msg.invalid_column
  /\ (forall query line,
        split [LF] (strip query) = [line] ->
        columns_segment line = None \/ columns_segment line = Some [] ->
        is_valid_name (name (parse_table_line line)) = true ->
        truthy_opt (alias (parse_table_line line)) = false ->
        columns (parse_table_line line) = [u "*"]
        /\ generate_sql query
           = u "SELECT " ++ name (parse_table_line line) ++ u ".* FROM "
             ++ name (parse_table_line line) ++ u ";").
Proof.
  split; [vm_compute; reflexivity|].
  intros query line Hs Hseg Hn Ha.
  assert (Hcols : columns (parse_table_line line) = [u "*"]).
  { rewrite columns_of_segment. destruct Hseg as [-> | ->]; reflexivity. }
  split; [exact Hcols|].
  rewrite generate_sql_tables. unfold query_tables. rewrite Hs.
  cbn [map first_error].
  generalize dependent (parse_table_line line). intros t Hn Ha Hcols.
  assert (He : line_error t = None).
  { unfold line_error, columns_valid. rewrite Hn, Ha, Hcols. reflexivity. }
  rewrite He.
  assert (Hj : join_missing [t] = false) by reflexivity.
  rewrite Hj, render_sql_text.
  unfold sql_text, from_text. cbn [map concat].
  unfold formatted_columns, qualifier. rewrite Ha, Hcols. cbn [map].
  rewrite !app_nil_r. cbn [join]. rewrite <- !app_assoc. reflexivity.
Qed.

Lemma wildcard_default_single_table_witness :
  generate_sql (u "products") = u "SELECT products.* FROM products;"
  /\ generate_sql (u "products :  : x") = u "SELECT products.* FROM products;".
Proof.
  split.
  - refine (proj2 (proj2 wildcard_default_single_table
                     (u "products") (u "products") _ _ _ _)).
    + vm_compute. reflexivity.
    + left. vm_compute. reflexivity.
    + vm_compute. reflexivity.
    + vm_compute. reflexivity.
  - refine (proj2 (proj2 wildcard_default_single_table
                     (u "products :  : x") (u "products :  : x") _ _ _ _)).
    + vm_compute. reflexivity.
    + right. vm_compute. reflexivity.
    + vm_compute. reflexivity.
    + vm_compute. reflexivity.
Defined.
